(** * Greedy geometric routing simulator (GraphSimulator): a shallow embedding

    Coordinates are modelled as real numbers ([R]) and [Math.sqrt],
    [Math.atan2], [Math.PI] as their real counterparts; floating-point
    rounding is not modelled.  [Delaunay.from(points).neighbors(i)]
    (the d3-delaunay library) is kept abstract as a section variable. *)

From Stdlib Require Import List String Bool Arith Lia Reals Lra Ratan.
Import ListNotations.
Open Scope R_scope.

(** ** Data model *)

Record Node := mkNode { id : nat; x : R; y : R; color : string }.

Record Packet := mkPacket { currentNode : Node; destination : Node }.

Record RouteEdge := mkEdge {
  x1 : R; y1 : R; x2 : R; y2 : R;
  startId : nat; endId : nat; ecolor : string }.

Record RouteStats := mkStats {
  numEdges : nat; totalLength : R; directDistance : R }.

(** [type Strategy]; the select only offers these five values, so the
    [default] arm of the switch is unreachable and not modelled. *)
Inductive Strategy :=
| closestToDestination | angleClosest | smallestJump | firstLeft | random.

Definition svgWidth : R := 600.
Definition svgHeight : R := 400.
Definition baseRadius : R := 5.

Definition inactiveColor : string := "grey".
Definition activeColors : list string := ["red"; "blue"; "green"; "orange"]%string.
Definition colors : list string := inactiveColor :: activeColors.

(** ** Geometry *)

(** [const distance = (a, b) => Math.sqrt(dx*dx + dy*dy)] *)
Definition distance (a b : Node) : R :=
  let dx := x a - x b in
  let dy := y a - y b in
  sqrt (dx * dx + dy * dy).

(** [Math.atan2] on real arguments. *)
Definition atan2 (yy xx : R) : R :=
  if Rlt_dec 0 xx then atan (yy / xx)
  else if Rlt_dec xx 0 then
    (if Rle_dec 0 yy then atan (yy / xx) + PI else atan (yy / xx) - PI)
  else if Rlt_dec 0 yy then PI / 2
  else if Rlt_dec yy 0 then - (PI / 2)
  else 0.

(** [a < b] on numbers, as a boolean. *)
Definition ltb (a b : R) : bool := if Rlt_dec a b then true else false.
Definition leb (a b : R) : bool := if Rle_dec a b then true else false.

(** ** Strategy engine: the [switch (strategy)] of [getNextNode]

    Each arm is a [reduce] over the candidate list with the accumulator
    replaced only on a strict improvement, so the first best candidate
    in enumeration order is kept. *)

(** [candidates.reduce((best, c) => best === null || key c < key best ? c : best, null)] *)
Definition reduce_min (key : Node -> R) (l : list Node) : option Node :=
  fold_left (fun best c =>
    match best with
    | None => Some c
    | Some b => if ltb (key c) (key b) then Some c else Some b
    end) l None.

(** case "closestToDestination" *)
Definition closest_next (destination : Node) (candidates : list Node) : option Node :=
  reduce_min (fun c => distance c destination) candidates.

(** case "smallestJump" *)
Definition smallest_jump_next (current destination : Node) (candidates : list Node)
  : option Node :=
  let validCandidates :=
    filter (fun c => ltb (distance c destination) (distance current destination))
      candidates in
  match validCandidates with
  | [] => None
  | _ => reduce_min (fun c => distance current c) validCandidates
  end.

(** Deviation of [c]'s bearing from the baseline bearing, folded into
    [0, PI] as in case "angleClosest". *)
Definition angle_deviation (current destination c : Node) : R :=
  let baselineAngle := atan2 (y destination - y current) (x destination - x current) in
  let candidateAngle := atan2 (y c - y current) (x c - x current) in
  let diff := Rabs (candidateAngle - baselineAngle) in
  if Rlt_dec PI diff then 2 * PI - diff else diff.

(** case "angleClosest" *)
Definition angle_closest_next (current destination : Node) (candidates : list Node)
  : option Node :=
  reduce_min (angle_deviation current destination) candidates.

(** [while (relativeAngle <= -Math.PI) relativeAngle += 2 * Math.PI;]
    run with a fuel bound; see [normalize_range] for why two rounds
    are never all used. *)
Fixpoint raise_angle (fuel : nat) (a : R) : R :=
  match fuel with
  | O => a
  | S f => if Rle_dec a (- PI) then raise_angle f (a + 2 * PI) else a
  end.

(** [while (relativeAngle > Math.PI) relativeAngle -= 2 * Math.PI;] *)
Fixpoint lower_angle (fuel : nat) (a : R) : R :=
  match fuel with
  | O => a
  | S f => if Rlt_dec PI a then lower_angle f (a - 2 * PI) else a
  end.

Definition loop_fuel : nat := 2.

Definition normalize_angle (a : R) : R :=
  lower_angle loop_fuel (raise_angle loop_fuel a).

(** The [relativeAngle] computed for candidate [c]. *)
Definition relative_angle (current destination c : Node) : R :=
  let baselineAngle := atan2 (y destination - y current) (x destination - x current) in
  let candidateAngle := atan2 (y c - y current) (x c - x current) in
  normalize_angle (candidateAngle - baselineAngle).

(** [arr.reduce(f)] with no initial value: the first element seeds the
    accumulator ([arr] is never empty where it is called). *)
Definition reduce1 {A} (f : A -> A -> A) (l : list A) : option A :=
  match l with
  | [] => None
  | h :: t => Some (fold_left f t h)
  end.

(** case "firstLeft" *)
Definition first_left_next (current destination : Node) (candidates : list Node)
  : option Node :=
  let candidatesWithAngle :=
    map (fun c => (c, relative_angle current destination c)) candidates in
  let leftCandidates := filter (fun p => ltb 0 (snd p)) candidatesWithAngle in
  match leftCandidates with
  | _ :: _ =>
      option_map fst
        (reduce1 (fun best cur => if ltb (snd cur) (snd best) then cur else best)
           leftCandidates)
  | [] =>
      option_map fst
        (reduce1 (fun best cur => if ltb (snd best) (snd cur) then cur else best)
           candidatesWithAngle)
  end.

(** [edge.startId === a && edge.endId === b || edge.startId === b && edge.endId === a] *)
Definition edge_joins (a b : nat) (e : RouteEdge) : bool :=
  (Nat.eqb (startId e) a && Nat.eqb (endId e) b)
  || (Nat.eqb (startId e) b && Nat.eqb (endId e) a).

(** [l[Math.floor(Math.random() * l.length)]] on a non-empty [l]: the
    draw is any natural number [r], reduced modulo the length.  [None]
    exactly on the empty list, where the source tests [l.length > 0]
    (or [=== 0]) before drawing. *)
Definition pick {A} (r : nat) (l : list A) : option A :=
  match l with
  | [] => None
  | h :: _ => Some (nth (Nat.modulo r (List.length l)) l h)
  end.

(** case "random": a uniform draw [rnd] among the neighbours not joined to
    [current] by an edge of [routeEdges]; none when there is no such one. *)
Definition random_next (rnd : nat) (routeEdges : list RouteEdge) (current : Node)
  (candidates : list Node) : option Node :=
  let validCandidates :=
    filter (fun c => negb (existsb (edge_joins (id current) (id c)) routeEdges))
      candidates in
  pick rnd validCandidates.

(** The [switch (strategy)] of [getNextNode]. *)
Definition select_next (strategy : Strategy) (rnd : nat) (routeEdges : list RouteEdge)
  (current destination : Node) (candidates : list Node) : option Node :=
  match strategy with
  | closestToDestination => closest_next destination candidates
  | smallestJump => smallest_jump_next current destination candidates
  | angleClosest => angle_closest_next current destination candidates
  | firstLeft => first_left_next current destination candidates
  | random => random_next rnd routeEdges current candidates
  end.


Section Simulator.

(** [Delaunay.from(points).neighbors(i)] of d3-delaunay, as an array of
    point indices; [i] is a [findIndex] result, hence possibly [-1]. *)
Variable delaunay_neighbors : list (R * R) -> Z -> list nat.

(** [nodes.findIndex((n) => n.id === current.id)] *)
Fixpoint findIndex (nodes : list Node) (i : nat) : Z :=
  match nodes with
  | [] => (-1)%Z
  | n :: rest => if Nat.eqb (id n) i then 0%Z else Z.succ (findIndex rest i)
  end.

(** [neighborIndices.map((i) => nodes[i])]; d3-delaunay only returns
    indices of points of the triangulation, an index outside [nodes]
    (never produced) is dropped. *)
Definition index_nodes (nodes : list Node) (idx : list nat) : list Node :=
  flat_map (fun i => match nth_error nodes i with Some n => [n] | None => [] end) idx.

(** [getNextNode(current, destination)], with the component state it
    reads ([nodes], [strategy], [routeEdges]) and the random draw as
    arguments. *)
Definition getNextNode (nodes : list Node) (strategy : Strategy) (rnd : nat)
  (routeEdges : list RouteEdge) (current destination : Node) : option Node :=
  if Nat.ltb (List.length nodes) 3 then None
  else
    let neighborIndices :=
      delaunay_neighbors (map (fun n => (x n, y n)) nodes) (findIndex nodes (id current)) in
    match neighborIndices with
    | [] => None
    | _ =>
        let candidates := index_nodes nodes neighborIndices in
        select_next strategy rnd routeEdges current destination candidates
    end.

End Simulator.

(** ** Statistics: the body of the [setRouteEdges] updater on arrival *)

Definition edge_length (e : RouteEdge) : R :=
  sqrt ((x2 e - x1 e) ^ 2 + (y2 e - y1 e) ^ 2).

Definition route_stats (newEdges : list RouteEdge) (dummy : RouteEdge) : RouteStats :=
  let numEdges := List.length newEdges in
  let totalLength := fold_left (fun sum e => sum + edge_length e) newEdges 0 in
  let first := hd dummy newEdges in
  let lst := last newEdges dummy in
  let directDistance := sqrt ((x1 first - x2 lst) ^ 2 + (y1 first - y2 lst) ^ 2) in
  mkStats numEdges totalLength directDistance.

(** ** Component state of [GraphSimulator] *)

(** [nodes], [strategy], [packet], [routeEdges], [lastRouteStats],
    [finalMessage] are the [useState] cells, [simulationStarted] the ref. *)
Record Sim := mkSim {
  nodes : list Node;
  strategy : Strategy;
  packet : option Packet;
  routeEdges : list RouteEdge;
  lastRouteStats : option RouteStats;
  finalMessage : option string;
  simulationStarted : bool }.

Definition init : Sim :=
  mkSim [] closestToDestination None [] None None false.

Definition msg_lost : string := "Paquet perdu : aucun voisin trouvé.".
Definition msg_arrived : string := "Le paquet est arrivé à destination !".
Definition msg_reset : string :=
  "Le chemin a été réinitialisé en raison d'un déplacement.".
Definition msg_too_few : string :=
  "Il faut au moins deux nœuds actifs pour démarrer le routage.".
Definition msg_no_destination : string :=
  "Aucun nœud destination trouvé pour la couleur ".

Definition set_message (m : string) (st : Sim) : Sim :=
  mkSim (nodes st) (strategy st) (packet st) (routeEdges st) (lastRouteStats st)
    (Some m) (simulationStarted st).

(** [handleSvgClick]: a new grey node ([colors[0]]) with id [Date.now()]. *)
Definition add_node (nid : nat) (px py : R) (st : Sim) : Sim :=
  mkSim (nodes st ++ [mkNode nid px py (hd inactiveColor colors)]) (strategy st)
    (packet st) (routeEdges st) (lastRouteStats st) (finalMessage st)
    (simulationStarted st).

(** [colors.indexOf(c)], [-1] when absent. *)
Fixpoint indexOf (l : list string) (c : string) : Z :=
  match l with
  | [] => (-1)%Z
  | h :: t =>
      if String.eqb h c then 0%Z
      else let r := indexOf t c in if (r <? 0)%Z then (-1)%Z else Z.succ r
  end.

(** [handleNodeClick]: the color moves to [colors[(indexOf + 1) % 5]]. *)
Definition cycle_color (nid : nat) (st : Sim) : Sim :=
  let step_color c :=
    nth (Z.to_nat (Z.modulo (indexOf colors c + 1) (Z.of_nat (List.length colors))))
      colors inactiveColor in
  mkSim (map (fun n => if Nat.eqb (id n) nid
                       then mkNode (id n) (x n) (y n) (step_color (color n)) else n)
           (nodes st))
    (strategy st) (packet st) (routeEdges st) (lastRouteStats st) (finalMessage st)
    (simulationStarted st).

(** [setStrategy] *)
Definition set_strategy (s : Strategy) (st : Sim) : Sim :=
  mkSim (nodes st) s (packet st) (routeEdges st) (lastRouteStats st) (finalMessage st)
    (simulationStarted st).

(** [updateNodePosition(id, x, y)] *)
Definition clamp (lo hi v : R) : R := Rmax lo (Rmin v hi).

Definition move_node (i : nat) (cx cy : R) (n : Node) : Node :=
  if Nat.eqb (id n) i then mkNode (id n) cx cy (color n) else n.

Definition updateNodePosition (i : nat) (xx yy : R) (st : Sim) : Sim :=
  let clampedX := clamp baseRadius (svgWidth - baseRadius) xx in
  let clampedY := clamp baseRadius (svgHeight - baseRadius) yy in
  let nodes' := map (move_node i clampedX clampedY) (nodes st) in
  if existsb (fun e => Nat.eqb (startId e) i || Nat.eqb (endId e) i) (routeEdges st)
  then mkSim nodes' (strategy st) None [] None (Some msg_reset) false
  else mkSim nodes' (strategy st) (packet st) (routeEdges st) (lastRouteStats st)
         (finalMessage st) (simulationStarted st).

(** ** [startRoutingSimulation] *)

(** [nodes.filter((n) => n.color !== inactiveColor)] *)
Definition active_nodes (nds : list Node) : list Node :=
  filter (fun n => negb (String.eqb (color n) inactiveColor)) nds.

(** [activeNodes.filter((n) => n.color === source.color && n.id !== source.id)] *)
Definition partners (source : Node) (activeNodes : list Node) : list Node :=
  filter (fun n => String.eqb (color n) (color source) && negb (Nat.eqb (id n) (id source)))
    activeNodes.


Inductive StartOutcome := Started | TooFewActive | NoDestination.

Definition startRoutingSimulation (r1 r2 : nat) (st : Sim) : Sim * StartOutcome :=
  let st0 := set_message EmptyString st in
  let activeNodes := active_nodes (nodes st) in
  if Nat.ltb (List.length activeNodes) 2 then (set_message msg_too_few st0, TooFewActive)
  else
    match pick r1 activeNodes with
    | None => (st0, TooFewActive) (* unreachable: [activeNodes] is not empty *)
    | Some source =>
        let candidates := partners source activeNodes in
        match pick r2 candidates with
        | None => (set_message (String.append msg_no_destination (color source)) st0, NoDestination)
        | Some destination =>
            (mkSim (nodes st) (strategy st) (Some (mkPacket source destination)) [] None
               (Some EmptyString) false, Started)
        end
    end.

(** ** Renders, animations and timers

    A hop of the packet is not atomic.  [simulateRoutingStep(current,
    destination)] chooses [next] at once and starts a d3 transition of the
    [#packet] circle; the edge is appended, the statistics computed and
    the next hop launched by the transition's ["end"] callback, a second
    later, and an arrival is completed by a [setTimeout] callback 100 ms
    after that.  The user's handlers run in between.

    - A closure holds the values the functions of one render read.  A run's
      chain of [simulateRoutingStep] calls is launched by the effect of one
      render and keeps that render's [nodes], [strategy], [routeEdges] and
      [packet] for all its hops.
    - [select("#packet")] finds the circle mounted by the last commit, if
      any ([{packet && <circle id="packet" ... />}]); a transition on the
      empty selection has no element and never ends.  A circle mounted
      again is a new element.
    - A d3 transition is scheduled when it is created and starts at a later
      timer tick; when it starts it interrupts the transitions of its
      element created before it, which never dispatch ["end"].  A
      transition whose element left the document still runs and ends.
    - After a handler React renders and commits, then runs the effect on
      [packet] ([packet && !simulationStarted.current] launches the run
      with the closure of that render), and commits what the effect set. *)

(** The values read by the functions of one render.  The effect only
    launches a run when [packet] is set, and the hops of a run keep the
    closure they were launched with, so the closure's [packet] is set. *)
Record Closure := mkClosure {
  c_nodes : list Node;
  c_strategy : Strategy;
  c_routeEdges : list RouteEdge;
  c_packet : Packet }.

(** The hop carried by a transition: the call [simulateRoutingStep(current,
    destination)] of a closure, which chose [next]. *)
Record Hop := mkHop {
  hop_closure : Closure;
  hop_current : Node;
  hop_destination : Node;
  hop_next : Node }.

(** A d3 transition of the element [tr_elem], scheduled or started. *)
Record Transition := mkTransition {
  tr_id : nat;
  tr_elem : nat;
  tr_started : bool;
  tr_hop : Hop }.

(** The component's state, the mounted [#packet] element, the pending
    transitions and the pending arrival timeouts. *)
Record World := mkWorld {
  ui : Sim;
  circle : option nat;
  fresh_elem : nat;
  transitions : list Transition;
  fresh_tr : nat;
  arrivals : nat }.

Definition init_world : World := mkWorld init None 0 [] 0 0.

Definition with_ui (f : Sim -> Sim) (w : World) : World :=
  mkWorld (f (ui w)) (circle w) (fresh_elem w) (transitions w) (fresh_tr w) (arrivals w).

Definition set_packet (p : option Packet) (st : Sim) : Sim :=
  mkSim (nodes st) (strategy st) p (routeEdges st) (lastRouteStats st)
    (finalMessage st) (simulationStarted st).

Definition set_started (b : bool) (st : Sim) : Sim :=
  mkSim (nodes st) (strategy st) (packet st) (routeEdges st) (lastRouteStats st)
    (finalMessage st) b.

(** The lost branch: message, [setPacket(null)], [simulationStarted.current = false]. *)
Definition lose (st : Sim) : Sim :=
  mkSim (nodes st) (strategy st) None (routeEdges st) (lastRouteStats st)
    (Some msg_lost) false.

(** The [setTimeout] callback of an arrival. *)
Definition arrival_timeout (st : Sim) : Sim :=
  mkSim (nodes st) (strategy st) None (routeEdges st) (lastRouteStats st)
    (Some msg_arrived) false.

(** The edge appended when a hop lands; its color is
    [packet!.destination.color], the closure's [packet]. *)
Definition hop_edge (h : Hop) : RouteEdge :=
  mkEdge (x (hop_current h)) (y (hop_current h)) (x (hop_next h)) (y (hop_next h))
    (id (hop_current h)) (id (hop_next h)) (color (destination (c_packet (hop_closure h)))).

Section Events.

Variable dn : list (R * R) -> Z -> list nat.

(** [simulateRoutingStep(current, destination)] of the render whose
    closure is [c], with the random draw [rnd] of its [getNextNode]. *)
Definition simulateRoutingStep (c : Closure) (rnd : nat) (current dest : Node)
  (w : World) : World :=
  match getNextNode dn (c_nodes c) (c_strategy c) rnd (c_routeEdges c) current dest with
  | None => with_ui lose w
  | Some next =>
      match circle w with
      | None => w
      | Some e =>
          mkWorld (ui w) (circle w) (fresh_elem w)
            (transitions w ++ [mkTransition (fresh_tr w) e false (mkHop c current dest next)])
            (S (fresh_tr w)) (arrivals w)
      end
  end.

(** The ["end"] callback of the transition carrying [h]: the
    [setRouteEdges] updater (on the latest route) with the statistics on
    arrival, then the arrival timeout or [setPacket] and the next call of
    the same closure. *)
Definition hop_end (h : Hop) (rnd : nat) (w : World) : World :=
  let st := ui w in
  let e := hop_edge h in
  let newEdges := routeEdges st ++ [e] in
  let arrived := Nat.eqb (id (hop_next h)) (id (hop_destination h)) in
  let st1 := mkSim (nodes st) (strategy st) (packet st) newEdges
               (if arrived then Some (route_stats newEdges e) else lastRouteStats st)
               (finalMessage st) (simulationStarted st) in
  if arrived then
    mkWorld st1 (circle w) (fresh_elem w) (transitions w) (fresh_tr w) (S (arrivals w))
  else
    simulateRoutingStep (hop_closure h) rnd (hop_next h) (hop_destination h)
      (mkWorld (set_packet (Some (mkPacket (hop_next h) (hop_destination h))) st1)
         (circle w) (fresh_elem w) (transitions w) (fresh_tr w) (arrivals w)).

(** Commit: the circle is mounted while [packet] is set, as a new element
    when it was not mounted. *)
Definition commit (w : World) : World :=
  match packet (ui w), circle w with
  | None, _ => mkWorld (ui w) None (fresh_elem w) (transitions w) (fresh_tr w) (arrivals w)
  | Some _, Some _ => w
  | Some _, None =>
      mkWorld (ui w) (Some (fresh_elem w)) (S (fresh_elem w)) (transitions w)
        (fresh_tr w) (arrivals w)
  end.

(** The effect [if (packet && !simulationStarted.current)] with the
    closure of the render it follows. *)
Definition effect (rnd : nat) (w : World) : World :=
  let st := ui w in
  match packet st with
  | Some p =>
      if simulationStarted st then w
      else simulateRoutingStep (mkClosure (nodes st) (strategy st) (routeEdges st) p) rnd
             (currentNode p) (destination p) (with_ui (set_started true) w)
  | None => w
  end.

Definition render (rnd : nat) (w : World) : World := commit (effect rnd (commit w)).

End Events.

(** What can happen next: a handler of the user, a transition starting or
    ending, an arrival timeout firing. *)
Inductive Event :=
| SvgClick (nid : nat) (px py : R)
| NodeClick (nid : nat)
| StrategyChange (s : Strategy)
| Drag (nid : nat) (px py : R)
| StartClick (r1 r2 : nat)
| TransitionStart (k : nat)
| TransitionEnd (k : nat) (rnd : nat)
| Timeout.

Definition find_transition (k : nat) (w : World) : option Transition :=
  find (fun t => Nat.eqb (tr_id t) k) (transitions w).

(** Transition [t] starts: the transitions of its element created before
    it are interrupted or cancelled. *)
Definition start_transition (t : Transition) (w : World) : World :=
  mkWorld (ui w) (circle w) (fresh_elem w)
    (flat_map (fun u =>
       if Nat.eqb (tr_id u) (tr_id t) then [mkTransition (tr_id u) (tr_elem u) true (tr_hop u)]
       else if Nat.eqb (tr_elem u) (tr_elem t) && Nat.ltb (tr_id u) (tr_id t) then []
       else [u]) (transitions w))
    (fresh_tr w) (arrivals w).

Definition remove_transition (k : nat) (w : World) : World :=
  mkWorld (ui w) (circle w) (fresh_elem w)
    (filter (fun u => negb (Nat.eqb (tr_id u) k)) (transitions w)) (fresh_tr w) (arrivals w).

Section Steps.

Variable dn : list (R * R) -> Z -> list nat.

(** The handler of an event, [None] when the event cannot happen. *)
Definition handle (ev : Event) (w : World) : option World :=
  match ev with
  | SvgClick i px py => Some (with_ui (add_node i px py) w)
  | NodeClick i => Some (with_ui (cycle_color i) w)
  | StrategyChange s => Some (with_ui (set_strategy s) w)
  | Drag i px py => Some (with_ui (updateNodePosition i px py) w)
  | StartClick r1 r2 => Some (with_ui (fun st => fst (startRoutingSimulation r1 r2 st)) w)
  | TransitionStart k =>
      match find_transition k w with
      | Some t => if tr_started t then None else Some (start_transition t w)
      | None => None
      end
  | TransitionEnd k rnd =>
      match find_transition k w with
      | Some t => if tr_started t then Some (hop_end dn (tr_hop t) rnd (remove_transition k w))
                  else None
      | None => None
      end
  | Timeout =>
      match arrivals w with
      | 0%nat => None
      | S n => Some (mkWorld (arrival_timeout (ui w)) (circle w) (fresh_elem w)
                       (transitions w) (fresh_tr w) n)
      end
  end.

(** An event, then the render it causes; [rnd] is the draw of the run the
    effect may launch. *)
Definition step (ev : Event) (rnd : nat) (w : World) : option World :=
  option_map (render dn rnd) (handle ev w).

Inductive reachable : World -> Prop :=
| reach_init : reachable init_world
| reach_step : forall w ev rnd w', reachable w -> step ev rnd w = Some w' -> reachable w'.

Fixpoint run (evs : list (Event * nat)) (w : World) : option World :=
  match evs with
  | [] => Some w
  | (ev, rnd) :: rest =>
      match step ev rnd w with
      | Some w' => run rest w'
      | None => None
      end
  end.

(** The world a sequence of events leads to from the initial one. *)
Definition play (evs : list (Event * nat)) : World :=
  match run evs init_world with Some w => w | None => init_world end.

End Steps.

(** ** Auxiliary predicates *)

(** Invariant of the [reduce_min] accumulator: [b] is the first minimum
    of the prefix [seen] already scanned. *)
Definition first_min (key : Node -> R) (seen : list Node) (b : Node) : Prop :=
  exists pre post, seen = pre ++ b :: post
    /\ (forall c, In c seen -> key b <= key c)
    /\ (forall c, In c pre -> key b < key c).

(** Consecutive edges of a route are joined: each one starts at the
    point and node where the previous one ends. *)
Fixpoint chained (l : list RouteEdge) : Prop :=
  match l with
  | e1 :: ((e2 :: _) as rest) =>
      x2 e1 = x1 e2 /\ y2 e1 = y1 e2 /\ endId e1 = startId e2 /\ chained rest
  | _ => True
  end.

(** Sum of the edge lengths, as the [reduce] of the statistics computes it. *)
Definition path_length (l : list RouteEdge) : R :=
  fold_left (fun sum e => sum + edge_length e) l 0.

(** The color a click gives to a node of color [c]: [colors[(indexOf + 1) % 5]],
    the [step_color] of [cycle_color]. *)
Definition next_color (c : string) : string :=
  nth (Z.to_nat (Z.modulo (indexOf colors c + 1) (Z.of_nat (List.length colors))))
    colors inactiveColor.

(** ** Concrete sessions *)

(** Nodes 1 and 2 made red by one click each, node 3 left grey; the three
    nodes form one triangle. *)
Definition triangle_session : Sim :=
  cycle_color 2 (cycle_color 1
    (add_node 3 200 300 (add_node 2 300 100 (add_node 1 100 100 init)))).

(** Neighbour indices of the triangle's points. *)
Definition triangle_delaunay (pts : list (R * R)) (i : Z) : list nat :=
  match i with
  | 0%Z => [1; 2]%nat
  | 1%Z => [0; 2]%nat
  | 2%Z => [0; 1]%nat
  | _ => []
  end.

(** Two nodes only, both made red. *)
Definition two_red_events : list (Event * nat) :=
  [(SvgClick 1 100 100, 0%nat); (SvgClick 2 300 100, 0%nat);
   (NodeClick 1, 0%nat); (NodeClick 2, 0%nat)].

Definition two_red_world : World := play triangle_delaunay two_red_events.

(** The events of [triangle_session], then the random strategy chosen. *)
Definition triangle_events : list (Event * nat) :=
  [(SvgClick 1 100 100, 0%nat); (SvgClick 2 300 100, 0%nat); (SvgClick 3 200 300, 0%nat);
   (NodeClick 1, 0%nat); (NodeClick 2, 0%nat); (StrategyChange random, 0%nat)].

(** A run from node 1 to node 2 started on the triangle (its first hop
    draws node 3); the hop lands on node 3 and the second hop (transition
    1) is under way. *)
Definition in_transit_events : list (Event * nat) :=
  triangle_events ++
  [(StartClick 0 0, 1%nat); (TransitionStart 0, 0%nat); (TransitionEnd 0 0, 0%nat);
   (TransitionStart 1, 0%nat)].

Definition in_transit : World := play triangle_delaunay in_transit_events.

(** The run above, whose second hop from node 3 draws node 1, back along
    the edge just used. *)
Definition reused_edge_events : list (Event * nat) :=
  in_transit_events ++ [(TransitionEnd 1 0, 0%nat)].

Definition reused_edge_run : World := play triangle_delaunay reused_edge_events.

(** Four nodes [X] (id 1), [P] (id 2), [Q] (id 3), [Y] (id 4): [X], [Q]
    and [Y] red, [P] grey; [PXYQ] is a parallelogram of sides 300 and 50
    whose triangulation has the diagonal [PY]. *)
Definition square_events : list (Event * nat) :=
  [(SvgClick 1 100 200, 0%nat); (SvgClick 2 400 200, 0%nat); (SvgClick 3 430 240, 0%nat);
   (SvgClick 4 130 240, 0%nat); (NodeClick 1, 0%nat); (NodeClick 3, 0%nat);
   (NodeClick 4, 0%nat); (StrategyChange random, 0%nat)].

Definition square_delaunay (pts : list (R * R)) (i : Z) : list nat :=
  match i with
  | 0%Z => [1; 3]%nat
  | 1%Z => [0; 2; 3]%nat
  | 2%Z => [1; 3]%nat
  | 3%Z => [0; 1; 2]%nat
  | _ => []
  end.

(** A run from [X] to [Q] goes to [P] and is on its hop [P -> Q] when [P]
    is dragged (in place), which resets the route and unmounts the packet;
    a new run from [Y] to [X] is started and its hop [Y -> X] begins.  The
    hop [P -> Q] of the old run lands and computes statistics, then the
    hop [Y -> X] lands and computes statistics again. *)
Definition race_reset_events : list (Event * nat) :=
  square_events ++
  [(StartClick 0 0, 0%nat); (TransitionStart 0, 0%nat); (TransitionEnd 0 1, 0%nat);
   (TransitionStart 1, 0%nat); (Drag 2 400 200, 0%nat)].

Definition race_reset : World := play square_delaunay race_reset_events.

Definition race_events : list (Event * nat) :=
  race_reset_events ++
  [(StartClick 2 0, 0%nat); (TransitionStart 2, 0%nat); (TransitionEnd 1 0, 0%nat);
   (Timeout, 0%nat); (TransitionEnd 2 0, 0%nat); (Timeout, 0%nat)].

Definition race_world : World := play square_delaunay race_events.

(** The edges [P -> Q] and [Y -> X], in red. *)
Definition edge_PQ : RouteEdge := mkEdge 400 200 430 240 2 3 "red".
Definition edge_YX : RouteEdge := mkEdge 130 240 100 200 4 1 "red".



(** The route and the statistics of two component states agree. *)
Definition same_rs (st st' : Sim) : Prop :=
  routeEdges st' = routeEdges st /\ lastRouteStats st' = lastRouteStats st.

(** The statistics, when there are some, are those of a non-empty prefix
    of the route. *)
Definition stats_of_prefix (st : Sim) : Prop :=
  forall s, lastRouteStats st = Some s ->
    exists pre post d, pre <> [] /\ routeEdges st = pre ++ post /\ s = route_stats pre d.

(** * Properties *)

(** ** Comparisons and reductions *)

Lemma ltb_true (a b : R) : ltb a b = true <-> a < b.
Proof. unfold ltb; destruct (Rlt_dec a b); split; intros; auto; discriminate. Qed.

Lemma ltb_false (a b : R) : ltb a b = false <-> b <= a.
Proof.
  unfold ltb; destruct (Rlt_dec a b); split; intros; try discriminate; try lra; auto.
Qed.

Lemma reduce_min_step (key : Node -> R) (l seen : list Node) (b : Node) :
  first_min key seen b ->
  exists b', fold_left (fun best c =>
    match best with
    | None => Some c
    | Some b => if ltb (key c) (key b) then Some c else Some b
    end) l (Some b) = Some b' /\ first_min key (seen ++ l) b'.
Proof.
  revert seen b; induction l as [|c l IH]; intros seen b Hb; simpl.
  - exists b; rewrite app_nil_r; auto.
  - destruct (ltb (key c) (key b)) eqn:E.
    + apply ltb_true in E.
      destruct Hb as (pre & post & Hs & Hle & Hlt).
      destruct (IH (seen ++ [c]) c) as (b' & Hf & Hm).
      { exists seen, []; split; [|split].
        - reflexivity.
        - intros d Hd; apply in_app_or in Hd as [Hd|[Hd|[]]]; subst; try lra.
          specialize (Hle d Hd); lra.
        - intros d Hd; specialize (Hle d Hd); lra. }
      exists b'; rewrite <- app_assoc in Hm; auto.
    + apply ltb_false in E.
      destruct Hb as (pre & post & Hs & Hle & Hlt).
      destruct (IH (seen ++ [c]) b) as (b' & Hf & Hm).
      { exists pre, (post ++ [c]); split; [|split].
        - subst; rewrite <- app_assoc; reflexivity.
        - intros d Hd; apply in_app_or in Hd as [Hd|[Hd|[]]]; subst; auto.
        - auto. }
      exists b'; rewrite <- app_assoc in Hm; auto.
Qed.

Lemma reduce_min_spec (key : Node -> R) (l : list Node) :
  l <> [] -> exists b, reduce_min key l = Some b /\ first_min key l b.
Proof.
  destruct l as [|c l]; [congruence|]; intros _.
  unfold reduce_min; simpl.
  destruct (reduce_min_step key l [c] c) as (b & Hf & Hm).
  - exists [], []; split; [|split]; simpl; auto.
    + intros d [Hd|[]]; subst; lra.
    + intros d [].
  - exists b; auto.
Qed.

Lemma reduce_min_nil (key : Node -> R) : reduce_min key [] = None.
Proof. reflexivity. Qed.

Lemma first_min_in (key : Node -> R) (l : list Node) (b : Node) :
  first_min key l b -> In b l.
Proof.
  intros (pre & post & -> & _ & _); apply in_or_app; right; left; reflexivity.
Qed.

Lemma pick_in {A} (r : nat) (l : list A) (a : A) : pick r l = Some a -> In a l.
Proof.
  unfold pick; destruct l as [|h t]; [discriminate|]; intros H.
  replace a with (nth (r mod List.length (h :: t)) (h :: t) h) by congruence.
  apply nth_In, Nat.mod_upper_bound; discriminate.
Qed.

Lemma pick_some {A} (r : nat) (l : list A) :
  l <> [] -> exists a, pick r l = Some a /\ In a l.
Proof.
  intros Hne; destruct (pick r l) as [a|] eqn:E.
  - exists a; split; [reflexivity | eapply pick_in; eauto].
  - destruct l; [congruence | discriminate].
Qed.

(** ** Strategy engine *)

(** C1 — smallestJump: a returned neighbour is strictly closer to the
    destination than the current node, and no strictly closer neighbour
    is a shorter jump from the current node; when no neighbour is
    strictly closer, the result is none. *)
Theorem smallest_jump_correct (rnd : nat) (routeEdges : list RouteEdge)
  (current destination : Node) (candidates : list Node) :
  (forall n,
     select_next smallestJump rnd routeEdges current destination candidates = Some n ->
     In n candidates
     /\ distance n destination < distance current destination
     /\ (forall c, In c candidates ->
           distance c destination < distance current destination ->
           distance current n <= distance current c))
  /\ ((forall c, In c candidates -> ~ distance c destination < distance current destination) ->
      select_next smallestJump rnd routeEdges current destination candidates = None).
Proof.
  simpl; unfold smallest_jump_next.
  set (closer := fun c => ltb (distance c destination) (distance current destination)).
  destruct (filter closer candidates) as [|v vs] eqn:Hv.
  - split; [discriminate | reflexivity].
  - split.
    + intros n Hn.
      destruct (reduce_min_spec (fun c => distance current c) (v :: vs)) as (b & Hb & Hm);
        [discriminate|].
      rewrite Hb in Hn; injection Hn as <-.
      pose proof (first_min_in _ _ _ Hm) as Hin; rewrite <- Hv in Hin.
      apply filter_In in Hin as [Hin Hc]; unfold closer in Hc; apply ltb_true in Hc.
      split; [exact Hin|split; [exact Hc|]].
      intros c Hc' Hlt; destruct Hm as (pre & post & _ & Hle & _); apply Hle.
      rewrite <- Hv; apply filter_In; split; [exact Hc'|]; apply ltb_true; exact Hlt.
    + intros Hnone.
      assert (Hin : In v (filter closer candidates)) by (rewrite Hv; left; reflexivity).
      apply filter_In in Hin as [Hin Hc]; unfold closer in Hc; apply ltb_true in Hc.
      exfalso; exact (Hnone v Hin Hc).
Qed.

(** C2 — closestToDestination: on a non-empty neighbour list the result is
    a neighbour whose distance to the destination is at most that of every
    neighbour, every neighbour enumerated before it is strictly farther
    (ties go to the first one met), and the result does not depend on the
    random draw or on the edge history. *)
Theorem closest_to_destination_correct (rnd rnd' : nat) (routeEdges routeEdges' : list RouteEdge)
  (current destination : Node) (candidates : list Node) :
  candidates <> [] ->
  exists pre b post,
    candidates = pre ++ b :: post
    /\ select_next closestToDestination rnd routeEdges current destination candidates = Some b
    /\ select_next closestToDestination rnd' routeEdges' current destination candidates = Some b
    /\ (forall c, In c candidates -> distance b destination <= distance c destination)
    /\ (forall c, In c pre -> distance b destination < distance c destination).
Proof.
  intros Hne; simpl; unfold closest_next.
  destruct (reduce_min_spec (fun c => distance c destination) candidates Hne)
    as (b & Hb & pre & post & Hs & Hle & Hlt).
  exists pre, b, post; rewrite Hb; auto.
Qed.

Lemma edge_joins_false (a b : nat) (e : RouteEdge) :
  edge_joins a b e = false ->
  ~ (startId e = a /\ endId e = b) /\ ~ (startId e = b /\ endId e = a).
Proof.
  unfold edge_joins; intros H.
  apply orb_false_iff in H as [H1 H2].
  split; intros [Hs He]; subst.
  - rewrite !Nat.eqb_refl in H1; discriminate.
  - rewrite !Nat.eqb_refl in H2; discriminate.
Qed.

Lemma edge_joins_true (a b : nat) (e : RouteEdge) :
  (startId e = a /\ endId e = b) \/ (startId e = b /\ endId e = a) ->
  edge_joins a b e = true.
Proof.
  unfold edge_joins; intros [[Hs He]|[Hs He]]; subst; rewrite !Nat.eqb_refl;
    [reflexivity | apply orb_true_r].
Qed.

(** C4 — random: a returned neighbour is never joined to the current node
    by an edge of the history, in either direction; when every neighbour
    is so joined, the result is none. *)
Theorem random_avoids_used_edges (rnd : nat) (routeEdges : list RouteEdge)
  (current destination : Node) (candidates : list Node) :
  (forall n,
     select_next random rnd routeEdges current destination candidates = Some n ->
     In n candidates
     /\ forall e, In e routeEdges ->
          ~ (startId e = id current /\ endId e = id n)
          /\ ~ (startId e = id n /\ endId e = id current))
  /\ ((forall c, In c candidates -> exists e, In e routeEdges
         /\ ((startId e = id current /\ endId e = id c)
             \/ (startId e = id c /\ endId e = id current))) ->
      select_next random rnd routeEdges current destination candidates = None).
Proof.
  simpl; unfold random_next.
  set (unused := fun c => negb (existsb (edge_joins (id current) (id c)) routeEdges)).
  destruct (filter unused candidates) as [|v vs] eqn:Hv.
  - split; [discriminate | reflexivity].
  - split.
    + intros n Hn; apply pick_in in Hn; rewrite <- Hv in Hn.
      apply filter_In in Hn as [Hin Hu]; split; [exact Hin|].
      intros e He; apply edge_joins_false.
      unfold unused in Hu; apply negb_true_iff in Hu.
      destruct (edge_joins (id current) (id n) e) eqn:Ej; [|reflexivity].
      exfalso; assert (Hx : existsb (edge_joins (id current) (id n)) routeEdges = true)
        by (apply existsb_exists; exists e; auto).
      congruence.
    + intros Hall.
      assert (Hin : In v (filter unused candidates)) by (rewrite Hv; left; reflexivity).
      apply filter_In in Hin as [Hin Hu]; unfold unused in Hu; apply negb_true_iff in Hu.
      destruct (Hall v Hin) as (e & He & Hj).
      assert (Hx : existsb (edge_joins (id current) (id v)) routeEdges = true)
        by (apply existsb_exists; exists e; split; [exact He | apply edge_joins_true; exact Hj]).
      congruence.
Qed.

(** ** firstLeft *)

Lemma atan2_range (yy xx : R) : - (3 * PI / 2) < atan2 yy xx < 3 * PI / 2.
Proof.
  pose proof PI_RGT_0 as Hpi; pose proof (atan_bound (yy / xx)) as [Ha Hb].
  unfold atan2.
  destruct (Rlt_dec 0 xx); [lra|].
  destruct (Rlt_dec xx 0); [destruct (Rle_dec 0 yy); lra|].
  destruct (Rlt_dec 0 yy); [lra|]; destruct (Rlt_dec yy 0); lra.
Qed.

(** Each [while] loop of the normalisation runs at most once on a
    difference of two [atan2] values, so the fuel of two rounds is never
    exhausted and the result lies in (-PI, PI]. *)
Lemma normalize_range (a : R) :
  - (3 * PI) < a < 3 * PI -> - PI < normalize_angle a <= PI.
Proof.
  pose proof PI_RGT_0 as Hpi; intros [Hlo Hhi]; unfold normalize_angle, loop_fuel; simpl.
  destruct (Rle_dec a (- PI)) as [H1|H1].
  - destruct (Rle_dec (a + 2 * PI) (- PI)); [lra|].
    destruct (Rlt_dec PI (a + 2 * PI)); [lra|]; lra.
  - destruct (Rlt_dec PI a) as [H2|H2].
    + destruct (Rlt_dec PI (a - 2 * PI)); [lra|]; lra.
    + lra.
Qed.

Lemma relative_angle_range (current destination c : Node) :
  - PI < relative_angle current destination c <= PI.
Proof.
  unfold relative_angle; apply normalize_range.
  pose proof (atan2_range (y destination - y current) (x destination - x current)).
  pose proof (atan2_range (y c - y current) (x c - x current)).
  lra.
Qed.

Lemma fold_min_pairs (l : list (Node * R)) (h : Node * R) :
  let b := fold_left (fun best cur => if ltb (snd cur) (snd best) then cur else best) l h in
  (b = h \/ In b l) /\ snd b <= snd h /\ (forall c, In c l -> snd b <= snd c).
Proof.
  revert h; induction l as [|p l IH]; intros h; simpl.
  - split; [left; reflexivity | split; [lra | intros c []]].
  - destruct (ltb (snd p) (snd h)) eqn:E.
    + apply ltb_true in E.
      destruct (IH p) as (Hin & Hle & Hall); split; [|split].
      * destruct Hin as [->|Hin]; right; [left|right]; auto.
      * lra.
      * intros c [<-|Hc]; [exact Hle | apply Hall; exact Hc].
    + apply ltb_false in E.
      destruct (IH h) as (Hin & Hle & Hall); split; [|split].
      * destruct Hin as [->|Hin]; [left; reflexivity | right; right; exact Hin].
      * exact Hle.
      * intros c [<-|Hc]; [lra | apply Hall; exact Hc].
Qed.

Lemma fold_max_pairs (l : list (Node * R)) (h : Node * R) :
  let b := fold_left (fun best cur => if ltb (snd best) (snd cur) then cur else best) l h in
  (b = h \/ In b l) /\ snd h <= snd b /\ (forall c, In c l -> snd c <= snd b).
Proof.
  revert h; induction l as [|p l IH]; intros h; simpl.
  - split; [left; reflexivity | split; [lra | intros c []]].
  - destruct (ltb (snd h) (snd p)) eqn:E.
    + apply ltb_true in E.
      destruct (IH p) as (Hin & Hle & Hall); split; [|split].
      * destruct Hin as [->|Hin]; right; [left|right]; auto.
      * lra.
      * intros c [<-|Hc]; [exact Hle | apply Hall; exact Hc].
    + apply ltb_false in E.
      destruct (IH h) as (Hin & Hle & Hall); split; [|split].
      * destruct Hin as [->|Hin]; [left; reflexivity | right; right; exact Hin].
      * exact Hle.
      * intros c [<-|Hc]; [lra | apply Hall; exact Hc].
Qed.

Lemma in_angles (current destination : Node) (candidates : list Node) (p : Node * R) :
  In p (map (fun c => (c, relative_angle current destination c)) candidates) ->
  In (fst p) candidates /\ snd p = relative_angle current destination (fst p).
Proof.
  intros Hp; apply in_map_iff in Hp as (c & <- & Hc); simpl; auto.
Qed.

(** C5 — firstLeft: every neighbour's angle relative to the bearing of
    the destination is normalised into (-PI, PI]; when some neighbour has a
    strictly positive relative angle, the result is a neighbour of smallest
    positive relative angle; otherwise it is a neighbour of largest
    relative angle. *)
Theorem first_left_correct (rnd : nat) (routeEdges : list RouteEdge)
  (current destination : Node) (candidates : list Node) :
  candidates <> [] ->
  (forall c, In c candidates ->
     - PI < relative_angle current destination c <= PI)
  /\ exists b,
       select_next firstLeft rnd routeEdges current destination candidates = Some b
       /\ In b candidates
       /\ ((exists c, In c candidates /\ 0 < relative_angle current destination c) ->
           0 < relative_angle current destination b
           /\ forall c, In c candidates -> 0 < relative_angle current destination c ->
                relative_angle current destination b <= relative_angle current destination c)
       /\ ((forall c, In c candidates -> relative_angle current destination c <= 0) ->
           forall c, In c candidates ->
             relative_angle current destination c <= relative_angle current destination b).
Proof.
  intros Hne; split; [intros c _; apply relative_angle_range|].
  simpl; unfold first_left_next.
  set (rel := relative_angle current destination).
  set (cwa := map (fun c => (c, rel c)) candidates).
  assert (Hcwa : forall c, In c candidates -> In (c, rel c) cwa)
    by (intros c Hc; apply in_map_iff; exists c; auto).
  destruct (filter (fun p => ltb 0 (snd p)) cwa) as [|p ps] eqn:Hl.
  - destruct candidates as [|c0 cs]; [congruence|].
    simpl; destruct (fold_max_pairs (map (fun c => (c, rel c)) cs) (c0, rel c0))
      as (Hin & Hle & Hall).
    set (q := fold_left _ _ _) in *.
    assert (Hq : In q cwa) by (destruct Hin as [->|Hin]; [left|right]; auto).
    destruct (in_angles current destination _ _ Hq) as [Hqc Hqs].
    fold rel in Hqs.
    exists (fst q); split; [reflexivity|split; [exact Hqc|split]].
    + intros (c & Hc & Hpos); exfalso.
      assert (Hf : In (c, rel c) (filter (fun p => ltb 0 (snd p)) cwa))
        by (apply filter_In; split; [apply Hcwa; exact Hc | apply ltb_true; exact Hpos]).
      rewrite Hl in Hf; destruct Hf.
    + intros _ c [<-|Hc].
      * fold rel; rewrite <- Hqs; exact Hle.
      * fold rel; rewrite <- Hqs; apply (Hall (c, rel c)), in_map_iff; exists c; auto.
  - simpl; destruct (fold_min_pairs ps p) as (Hin & Hle & Hall).
    set (q := fold_left _ _ _) in *.
    assert (Hq : In q (filter (fun p => ltb 0 (snd p)) cwa))
      by (rewrite Hl; destruct Hin as [->|Hin]; [left|right]; auto).
    apply filter_In in Hq as [Hq Hpos]; apply ltb_true in Hpos.
    destruct (in_angles current destination _ _ Hq) as [Hqc Hqs].
    fold rel in Hqs.
    exists (fst q); split; [reflexivity|split; [exact Hqc|split]].
    + intros _; rewrite <- Hqs; split; [exact Hpos|].
      intros c Hc Hcpos.
      assert (Hf : In (c, rel c) (filter (fun p => ltb 0 (snd p)) cwa))
        by (apply filter_In; split; [apply Hcwa; exact Hc | apply ltb_true; exact Hcpos]).
      rewrite Hl in Hf; destruct Hf as [Hp|Hf]; [rewrite Hp in Hle; exact Hle | exact (Hall _ Hf)].
    + intros Hnonpos; exfalso.
      specialize (Hnonpos (fst q) Hqc); fold rel in Hnonpos; lra.
Qed.

(** ** Node relocation *)

Lemma clamp_range (lo hi v : R) : lo <= hi -> lo <= clamp lo hi v <= hi.
Proof.
  intros H; unfold clamp, Rmax, Rmin.
  destruct (Rle_dec v hi); destruct (Rle_dec lo _); lra.
Qed.

(** C10 — [updateNodePosition(id, x, y)] keeps the node list's length and
    order; every node keeps its id and color; a node with the moved id ends
    inside [baseRadius, svgWidth - baseRadius] x [baseRadius, svgHeight -
    baseRadius] whatever the requested coordinates; any other node is
    unchanged. *)
Theorem update_node_position_clamps (i : nat) (xx yy : R) (st : Sim) :
  let nodes' := nodes (updateNodePosition i xx yy st) in
  List.length nodes' = List.length (nodes st)
  /\ forall k n, nth_error (nodes st) k = Some n ->
       exists n', nth_error nodes' k = Some n'
         /\ id n' = id n /\ color n' = color n
         /\ (id n <> i -> n' = n)
         /\ (id n = i ->
             baseRadius <= x n' <= svgWidth - baseRadius
             /\ baseRadius <= y n' <= svgHeight - baseRadius).
Proof.
  intros nodes'.
  assert (Hn : nodes' = map (move_node i (clamp baseRadius (svgWidth - baseRadius) xx)
                              (clamp baseRadius (svgHeight - baseRadius) yy)) (nodes st))
    by (unfold nodes', updateNodePosition; destruct existsb; reflexivity).
  rewrite Hn; split; [apply length_map|].
  intros k n Hk; exists (move_node i (clamp baseRadius (svgWidth - baseRadius) xx)
                           (clamp baseRadius (svgHeight - baseRadius) yy) n).
  split; [rewrite nth_error_map, Hk; reflexivity|].
  unfold move_node; destruct (Nat.eqb_spec (id n) i) as [He|He]; simpl.
  - split; [reflexivity|split; [reflexivity|split; [intros; contradiction|]]].
    intros _; unfold baseRadius, svgWidth, svgHeight;
      split; apply clamp_range; lra.
  - split; [reflexivity|split; [reflexivity|split; [reflexivity|intros; contradiction]]].
Qed.

(** ** Starting a run *)


(** C6 — with fewer than two active nodes, or when the drawn source has no
    other active node of its color, the start fails at once with its
    message; the resulting state is the old one with only the message
    changed, so no packet is created and an idle simulator stays idle. *)
Theorem start_rejects_without_pair (r1 r2 : nat) (st : Sim) :
  ((List.length (active_nodes (nodes st)) < 2)%nat ->
     startRoutingSimulation r1 r2 st = (set_message msg_too_few st, TooFewActive))
  /\ (forall source,
        (2 <= List.length (active_nodes (nodes st)))%nat ->
        pick r1 (active_nodes (nodes st)) = Some source ->
        partners source (active_nodes (nodes st)) = [] ->
        startRoutingSimulation r1 r2 st
        = (set_message (String.append msg_no_destination (color source)) st, NoDestination))
  /\ (forall st' o, startRoutingSimulation r1 r2 st = (st', o) -> o <> Started ->
        packet st' = packet st
        /\ (packet st = None -> packet st' = None)
        /\ exists m, st' = set_message m st /\ m <> EmptyString).
Proof.
  unfold startRoutingSimulation.
  split; [|split].
  - intros H; apply Nat.ltb_lt in H; rewrite H; reflexivity.
  - intros source H Hs Hp; apply Nat.ltb_ge in H; rewrite H, Hs.
    rewrite Hp; reflexivity.
  - intros st' o Hr Ho.
    destruct (Nat.ltb_spec (List.length (active_nodes (nodes st))) 2) as [H|H].
    + injection Hr as <- <-; split; [reflexivity|split; [auto|]].
      exists msg_too_few; split; [reflexivity|discriminate].
    + destruct (pick_some r1 (active_nodes (nodes st))) as (source & Hs & _);
        [intros E; rewrite E in H; simpl in H; lia|].
      rewrite Hs in Hr.
      destruct (pick r2 _) as [d|]; injection Hr as <- <-; [congruence|].
      split; [reflexivity|split; [auto|]].
      exists (String.append msg_no_destination (color source));
        split; [reflexivity|unfold msg_no_destination; simpl; discriminate].
Qed.

Lemma start_started (r1 r2 : nat) (st st' : Sim) :
  startRoutingSimulation r1 r2 st = (st', Started) ->
  exists source dest,
    st' = mkSim (nodes st) (strategy st) (Some (mkPacket source dest)) [] None
            (Some EmptyString) false
    /\ In source (active_nodes (nodes st))
    /\ In dest (partners source (active_nodes (nodes st))).
Proof.
  unfold startRoutingSimulation.
  destruct (Nat.ltb _ 2); [discriminate|].
  destruct (pick r1 _) as [source|] eqn:Hs; [|discriminate].
  destruct (pick r2 _) as [dest|] eqn:Hd; [|discriminate].
  intros H; injection H as <-.
  exists source, dest; split; [reflexivity|split; eapply pick_in; eauto].
Qed.

Lemma start_not_started (r1 r2 : nat) (st st' : Sim) (o : StartOutcome) :
  startRoutingSimulation r1 r2 st = (st', o) -> o <> Started ->
  exists m, st' = set_message m st.
Proof.
  unfold startRoutingSimulation; intros Hr Ho.
  destruct (Nat.ltb _ 2); [injection Hr as <- _; eexists; reflexivity|].
  destruct (pick r1 _) as [source|]; [|injection Hr as <- _; eexists; reflexivity].
  destruct (pick r2 _) as [dest|]; injection Hr as <- <-; [congruence|].
  eexists; reflexivity.
Qed.

(** C7 (amended) — a start request is not checked against an active run:
    its outcome depends on the node set and the draws only.  When it
    succeeds it installs a new packet between two distinct active nodes of
    one color and clears the route and the statistics, whatever run was in
    progress; when it fails, packet, route and statistics are left as they
    were. *)
Theorem start_ignores_active_run (r1 r2 : nat) (st : Sim) :
  let '(st', o) := startRoutingSimulation r1 r2 st in
  (forall st2, nodes st2 = nodes st -> snd (startRoutingSimulation r1 r2 st2) = o)
  /\ (o = Started ->
      routeEdges st' = [] /\ lastRouteStats st' = None
      /\ exists source dest, packet st' = Some (mkPacket source dest)
           /\ In source (nodes st) /\ In dest (nodes st)
           /\ id dest <> id source /\ color dest = color source
           /\ color source <> inactiveColor)
  /\ (o <> Started ->
      packet st' = packet st /\ routeEdges st' = routeEdges st
      /\ lastRouteStats st' = lastRouteStats st).
Proof.
  destruct (startRoutingSimulation r1 r2 st) as [st' o] eqn:Hr.
  split; [|split].
  - intros st2 Hn; unfold startRoutingSimulation in *; rewrite Hn.
    destruct (Nat.ltb _ 2); [injection Hr as _ <-; reflexivity|].
    destruct (pick r1 _) as [source|]; [|injection Hr as _ <-; reflexivity].
    destruct (pick r2 _); injection Hr as _ <-; reflexivity.
  - intros ->; destruct (start_started r1 r2 st st' Hr) as (s & d & -> & Hs & Hd).
    split; [reflexivity|split; [reflexivity|]].
    exists s, d; split; [reflexivity|].
    unfold active_nodes, partners in *.
    apply filter_In in Hd as [Hd Hc]; apply filter_In in Hd as [Hd Ha].
    apply filter_In in Hs as [Hs Hsa].
    apply andb_true_iff in Hc as [Hc Hi].
    apply String.eqb_eq in Hc; apply negb_true_iff, Nat.eqb_neq in Hi.
    apply negb_true_iff, String.eqb_neq in Hsa.
    repeat split; auto.
  - intros Ho; destruct (start_not_started r1 r2 st st' o Hr Ho) as (m & ->).
    repeat split.
Qed.

(** C7 — the claim that a start is rejected while a run is active fails:
    in a reachable state where a run is in transit (packet present, one
    edge on the route), a start succeeds, clears the route and replaces the
    packet by one leaving from another node. *)
(** ** Event sequences *)

Lemma run_reachable (dn : list (R * R) -> Z -> list nat) (evs : list (Event * nat)) :
  forall w w', reachable dn w -> run dn evs w = Some w' -> reachable dn w'.
Proof.
  induction evs as [|[ev rnd] evs IH]; simpl; intros w w' Hw Hr.
  - injection Hr as <-; exact Hw.
  - destruct (step dn ev rnd w) as [w1|] eqn:E; [|discriminate].
    apply (IH w1); [eapply reach_step; eauto | exact Hr].
Qed.

Lemma play_reachable (dn : list (R * R) -> Z -> list nat) (evs : list (Event * nat)) :
  run dn evs init_world <> None -> reachable dn (play dn evs).
Proof.
  unfold play; destruct (run dn evs init_world) as [w|] eqn:E; intros H; [|congruence].
  eapply run_reachable; [constructor | exact E].
Qed.

Ltac plays := apply play_reachable; let H := fresh in intro H; vm_compute in H; discriminate H.

(** C7 — the claim that a start is rejected while a run is active fails:
    in a reachable world where a run is in transit (packet present, one
    edge on the route, the run's flag set and its second hop under way), a
    start succeeds, clears the route and replaces the packet by one
    leaving from another node; the click's handler and render lead to a
    world with that packet and an empty route. *)
Lemma start_while_active_counterexample :
  reachable triangle_delaunay in_transit
  /\ packet (ui in_transit) <> None
  /\ routeEdges (ui in_transit) <> []
  /\ simulationStarted (ui in_transit) = true
  /\ map tr_started (transitions in_transit) = [true]
  /\ snd (startRoutingSimulation 1 0 (ui in_transit)) = Started
  /\ routeEdges (fst (startRoutingSimulation 1 0 (ui in_transit))) = []
  /\ option_map (fun p => id (currentNode p)) (packet (ui in_transit)) = Some 3%nat
  /\ option_map (fun p => id (currentNode p))
       (packet (fst (startRoutingSimulation 1 0 (ui in_transit)))) = Some 2%nat
  /\ option_map (fun w => (option_map (fun p => id (currentNode p)) (packet (ui w)),
                           List.length (routeEdges (ui w))))
       (step triangle_delaunay (StartClick 1 0) 0 in_transit) = Some (Some 2%nat, 0%nat).
Proof.
  split; [plays|].
  split; [let H := fresh in intro H; vm_compute in H; discriminate H|].
  split; [let H := fresh in intro H; vm_compute in H; discriminate H|].
  vm_compute; repeat split.
Qed.

(** C8 — with fewer than three nodes no next hop is ever found, and a run
    started on such a node set is lost at its first step, launched by the
    effect of the start's render: the packet is discarded, the loss
    reported, the run's flag cleared and no transition scheduled. *)
Theorem undersized_graph_lost (dn : list (R * R) -> Z -> list nat) (nds : list Node) :
  (List.length nds < 3)%nat ->
  (forall strat rnd edges current destination,
     getNextNode dn nds strat rnd edges current destination = None)
  /\ (forall w r1 r2 rnd w',
        nodes (ui w) = nds -> snd (startRoutingSimulation r1 r2 (ui w)) = Started ->
        step dn (StartClick r1 r2) rnd w = Some w' ->
        packet (ui w') = None
        /\ finalMessage (ui w') = Some msg_lost
        /\ simulationStarted (ui w') = false
        /\ transitions w' = transitions w).
Proof.
  intros Hlt.
  assert (Hnone : forall strat rnd edges current destination,
             getNextNode dn nds strat rnd edges current destination = None).
  { intros; unfold getNextNode; apply Nat.ltb_lt in Hlt; rewrite Hlt; reflexivity. }
  split; [exact Hnone|].
  intros w r1 r2 rnd w' Hn Hs Hstep.
  destruct (startRoutingSimulation r1 r2 (ui w)) as [st' o] eqn:E; simpl in Hs; subst o.
  destruct (start_started r1 r2 (ui w) st' E) as (s & d & -> & _ & _).
  unfold step, handle, with_ui in Hstep; rewrite E in Hstep.
  injection Hstep as <-.
  unfold render, commit; cbn -[getNextNode];
    destruct (circle w); unfold effect, simulateRoutingStep; cbn -[getNextNode];
    rewrite Hn, Hnone; cbn; repeat split.
Qed.

Lemma undersized_graph_lost_witness :
  (List.length (nodes (ui two_red_world)) < 3)%nat
  /\ exists w', step triangle_delaunay (StartClick 0 0) 0 two_red_world = Some w'
                /\ packet (ui w') = None /\ finalMessage (ui w') = Some msg_lost.
Proof.
  assert (H : (List.length (nodes (ui two_red_world)) < 3)%nat)
    by (apply Nat.ltb_lt; vm_compute; reflexivity).
  split; [exact H|].
  destruct (step triangle_delaunay (StartClick 0 0) 0 two_red_world) as [w'|] eqn:E.
  - destruct (proj2 (undersized_graph_lost triangle_delaunay _ H)
                two_red_world 0%nat 0%nat 0%nat w' eq_refl
                ltac:(vm_compute; reflexivity) E) as (Hp & Hm & _).
    exists w'; split; [reflexivity | split; assumption].
  - vm_compute in E; discriminate E.
Defined.

(** ** Path statistics *)

Lemma last_default {A} (a : A) (l : list A) (d d' : A) :
  last (a :: l) d = last (a :: l) d'.
Proof.
  revert a; induction l as [|b l IH]; intros a; [reflexivity|].
  change (last (b :: l) d = last (b :: l) d'); apply IH.
Qed.

Lemma route_stats_cons (e0 : RouteEdge) (rest : list RouteEdge) (d : RouteEdge) :
  route_stats (e0 :: rest) d
  = mkStats (List.length (e0 :: rest)) (path_length (e0 :: rest))
      (sqrt ((x1 e0 - x2 (last (e0 :: rest) e0)) ^ 2
             + (y1 e0 - y2 (last (e0 :: rest) e0)) ^ 2)).
Proof. unfold route_stats; rewrite (last_default e0 rest d e0); reflexivity. Qed.

Lemma closest_to_destination_correct_witness :
  nodes triangle_session <> []
  /\ exists b, select_next closestToDestination 0 [] (mkNode 1 100 100 "red")
                 (mkNode 2 300 100 "red") (nodes triangle_session) = Some b.
Proof.
  assert (Hne : nodes triangle_session <> []) by (vm_compute; discriminate).
  split; [exact Hne|].
  destruct (closest_to_destination_correct 0 0 [] [] (mkNode 1 100 100 "red")
              (mkNode 2 300 100 "red") (nodes triangle_session) Hne)
    as (pre & b & post & _ & Hb & _).
  exists b; exact Hb.
Defined.

Lemma first_left_correct_witness :
  nodes triangle_session <> []
  /\ exists b, select_next firstLeft 0 [] (mkNode 1 100 100 "red")
                 (mkNode 2 300 100 "red") (nodes triangle_session) = Some b.
Proof.
  assert (Hne : nodes triangle_session <> []) by (vm_compute; discriminate).
  split; [exact Hne|].
  destruct (first_left_correct 0 [] (mkNode 1 100 100 "red")
              (mkNode 2 300 100 "red") (nodes triangle_session) Hne)
    as (_ & b & Hb & _).
  exists b; exact Hb.
Defined.

(** The hops of a run read the route captured by the render that launched
    the run (empty), not the route accumulated since: a reachable
    random-strategy run from node 1 to node 2 goes 1 -> 3 and then back
    3 -> 1 along the edge it has just traversed; its pending hop still
    carries the launching closure, with the random strategy and the empty
    route. *)
Lemma random_run_reuses_edge :
  reachable triangle_delaunay reused_edge_run
  /\ map (fun t => (c_strategy (hop_closure (tr_hop t)), c_routeEdges (hop_closure (tr_hop t))))
       (transitions reused_edge_run) = [(random, [])]
  /\ map (fun e => (startId e, endId e)) (routeEdges (ui reused_edge_run))
     = [(1, 3); (3, 1)]%nat
  /\ option_map (fun p => id (currentNode p)) (packet (ui reused_edge_run)) = Some 1%nat.
Proof.
  split; [plays|].
  vm_compute; repeat split.
Qed.

(** ** angleClosest *)

Lemma atan2_tight (yy xx : R) : - PI < atan2 yy xx <= PI.
Proof.
  pose proof PI_RGT_0 as Hpi; pose proof (atan_bound (yy / xx)) as [Ha Hb].
  unfold atan2.
  destruct (Rlt_dec 0 xx); [lra|].
  destruct (Rlt_dec xx 0) as [Hx|Hx].
  - destruct (Rle_dec 0 yy) as [Hy|Hy].
    + assert (Hq : atan (yy / xx) <= atan 0).
      { destruct Hy as [Hy|Hy].
        - left; apply atan_increasing; apply Rdiv_pos_neg; lra.
        - right; subst yy; unfold Rdiv; rewrite Rmult_0_l; reflexivity. }
      rewrite atan_0 in Hq; lra.
    + assert (Hq : atan 0 < atan (yy / xx))
        by (apply atan_increasing; apply Rdiv_neg_neg; lra).
      rewrite atan_0 in Hq; lra.
  - destruct (Rlt_dec 0 yy); [lra|]; destruct (Rlt_dec yy 0); lra.
Qed.

Lemma angle_deviation_range (current destination c : Node) :
  0 <= angle_deviation current destination c <= PI.
Proof.
  unfold angle_deviation.
  pose proof (atan2_tight (y destination - y current) (x destination - x current)).
  pose proof (atan2_tight (y c - y current) (x c - x current)).
  set (a := atan2 (y c - y current) (x c - x current)) in *.
  set (b := atan2 (y destination - y current) (x destination - x current)) in *.
  pose proof (Rabs_pos (a - b)).
  assert (Rabs (a - b) < 2 * PI) by (apply Rabs_def1; lra).
  destruct (Rlt_dec PI (Rabs (a - b))); lra.
Qed.

(** angleClosest: every neighbour's deviation from the bearing of the
    destination lies in [0, PI]; on a non-empty neighbour list the result
    is a neighbour of least deviation, every neighbour listed before it
    deviating strictly more. *)
Theorem angle_closest_correct (rnd : nat) (routeEdges : list RouteEdge)
  (current destination : Node) (candidates : list Node) :
  candidates <> [] ->
  (forall c, In c candidates -> 0 <= angle_deviation current destination c <= PI)
  /\ exists pre b post,
       candidates = pre ++ b :: post
       /\ select_next angleClosest rnd routeEdges current destination candidates = Some b
       /\ (forall c, In c candidates ->
             angle_deviation current destination b <= angle_deviation current destination c)
       /\ (forall c, In c pre ->
             angle_deviation current destination b < angle_deviation current destination c).
Proof.
  intros Hne; split; [intros c _; apply angle_deviation_range|].
  simpl; unfold angle_closest_next.
  destruct (reduce_min_spec (angle_deviation current destination) candidates Hne)
    as (b & Hb & pre & post & Hs & Hle & Hlt).
  exists pre, b, post; auto.
Qed.

Lemma angle_closest_correct_witness :
  nodes triangle_session <> []
  /\ exists b, select_next angleClosest 0 [] (mkNode 1 100 100 "red")
                 (mkNode 2 300 100 "red") (nodes triangle_session) = Some b.
Proof.
  assert (Hne : nodes triangle_session <> []) by (vm_compute; discriminate).
  split; [exact Hne|].
  destruct (angle_closest_correct 0 [] (mkNode 1 100 100 "red")
              (mkNode 2 300 100 "red") (nodes triangle_session) Hne)
    as (_ & pre & b & post & _ & Hb & _).
  exists b; exact Hb.
Defined.

(** ** getNextNode *)

Lemma reduce_min_in (key : Node -> R) (l : list Node) (n : Node) :
  reduce_min key l = Some n -> In n l.
Proof.
  destruct l as [|c l]; [discriminate|].
  destruct (reduce_min_spec key (c :: l)) as (b & Hb & Hm); [discriminate|].
  rewrite Hb; intros H; injection H as <-; exact (first_min_in _ _ _ Hm).
Qed.

Lemma select_next_in (s : Strategy) (rnd : nat) (edges : list RouteEdge)
  (current destination n : Node) (candidates : list Node) :
  select_next s rnd edges current destination candidates = Some n -> In n candidates.
Proof.
  destruct s; simpl.
  - apply reduce_min_in.
  - apply reduce_min_in.
  - unfold smallest_jump_next.
    destruct (filter _ candidates) as [|v vs] eqn:Hv; [discriminate|].
    intros H; apply reduce_min_in in H; rewrite <- Hv in H.
    apply filter_In in H; tauto.
  - unfold first_left_next.
    set (cwa := map _ candidates).
    assert (Hcwa : forall q, In q cwa -> In (fst q) candidates)
      by (intros q Hq; exact (proj1 (in_angles _ _ _ _ Hq))).
    destruct (filter _ cwa) as [|p ps] eqn:Hl.
    + destruct cwa as [|p ps] eqn:Hc; [discriminate|]; simpl.
      destruct (fold_max_pairs ps p) as (Hin & _).
      intros H; injection H as <-; apply Hcwa.
      destruct Hin as [->|Hin]; [left|right]; auto.
    + simpl; destruct (fold_min_pairs ps p) as (Hin & _).
      intros H; injection H as <-; apply Hcwa.
      assert (Hf : In (fold_left (fun best cur => if ltb (snd cur) (snd best) then cur else best) ps p)
                     (filter (fun p => ltb 0 (snd p)) cwa))
        by (rewrite Hl; destruct Hin as [->|Hin]; [left|right]; auto).
      apply filter_In in Hf; tauto.
  - unfold random_next; intros H; apply pick_in, filter_In in H; tauto.
Qed.

Lemma getNextNode_select (dn : list (R * R) -> Z -> list nat) (nds : list Node)
  (s : Strategy) (rnd : nat) (edges : list RouteEdge) (current destination n : Node) :
  getNextNode dn nds s rnd edges current destination = Some n ->
  (3 <= List.length nds)%nat
  /\ select_next s rnd edges current destination
       (index_nodes nds (dn (map (fun n => (x n, y n)) nds) (findIndex nds (id current))))
     = Some n.
Proof.
  unfold getNextNode.
  destruct (Nat.ltb_spec (List.length nds) 3) as [H|H]; [discriminate|].
  destruct (dn _ _); [discriminate|]; auto.
Qed.

(** Whatever the strategy, a next hop is a node of the list and one of the
    triangulation neighbours of the current node's index; there is none
    when the triangulation gives the current node no neighbour. *)
Theorem getNextNode_is_neighbor (dn : list (R * R) -> Z -> list nat) (nds : list Node)
  (s : Strategy) (rnd : nat) (edges : list RouteEdge) (current destination n : Node) :
  getNextNode dn nds s rnd edges current destination = Some n ->
  (3 <= List.length nds)%nat
  /\ In n nds
  /\ exists i, In i (dn (map (fun n => (x n, y n)) nds) (findIndex nds (id current)))
              /\ nth_error nds i = Some n.
Proof.
  intros H; destruct (getNextNode_select dn nds s rnd edges current destination n H)
    as [Hlen Hs].
  apply select_next_in in Hs; unfold index_nodes in Hs.
  apply in_flat_map in Hs as (i & Hi & Hn).
  destruct (nth_error nds i) as [m|] eqn:Hm; [|destruct Hn].
  destruct Hn as [<-|[]].
  split; [exact Hlen|split; [eapply nth_error_In; eauto|]].
  exists i; auto.
Qed.

Lemma getNextNode_is_neighbor_witness :
  getNextNode triangle_delaunay (nodes triangle_session) random 0 []
    (mkNode 1 100 100 "red") (mkNode 2 300 100 "red") = Some (mkNode 2 300 100 "red")
  /\ In (mkNode 2 300 100 "red") (nodes triangle_session).
Proof.
  assert (H : getNextNode triangle_delaunay (nodes triangle_session) random 0 []
                (mkNode 1 100 100 "red") (mkNode 2 300 100 "red")
              = Some (mkNode 2 300 100 "red")) by (vm_compute; reflexivity).
  split; [exact H|].
  exact (proj1 (proj2 (getNextNode_is_neighbor _ _ _ _ _ _ _ _ H))).
Defined.

(** ** Colour cycling ([handleNodeClick]) *)

Lemma cycle_color_nodes (i : nat) (st : Sim) :
  nodes (cycle_color i st)
  = map (fun n => if Nat.eqb (id n) i
                  then mkNode (id n) (x n) (y n) (next_color (color n)) else n) (nodes st).
Proof. reflexivity. Qed.

Lemma indexOf_range (l : list string) (c : string) :
  (-1 <= indexOf l c < Z.of_nat (List.length l))%Z.
Proof.
  induction l as [|h t IH]; simpl; [lia|].
  destruct (String.eqb h c); [lia|].
  destruct (Z.ltb_spec (indexOf t c) 0); lia.
Qed.

Lemma next_color_in (c : string) : In (next_color c) colors.
Proof.
  unfold next_color; apply nth_In.
  assert (Hi := indexOf_range colors c).
  change (Z.of_nat (List.length colors)) with 5%Z; change (List.length colors) with 5%nat.
  assert (H := Z.mod_pos_bound (indexOf colors c + 1) 5 ltac:(lia)); lia.
Qed.

Lemma next_color_period (c : string) :
  In c colors -> next_color (next_color (next_color (next_color (next_color c)))) = c.
Proof.
  intros Hc; simpl in Hc; destruct Hc as [<-|[<-|[<-|[<-|[<-|[]]]]]];
    vm_compute; reflexivity.
Qed.

Lemma next_color_outside (c : string) : ~ In c colors -> next_color c = inactiveColor.
Proof.
  intros Hc; unfold next_color.
  assert (Hi : indexOf colors c = (-1)%Z).
  { unfold colors, activeColors, inactiveColor in *; cbn [indexOf]; cbn [In] in Hc.
    repeat match goal with |- context [String.eqb ?a ?b] =>
      destruct (String.eqb_spec a b) as [E|_]; [subst; tauto|] end; reflexivity. }
  rewrite Hi; reflexivity.
Qed.

Lemma map_fixed {A : Type} (f : A -> A) (l : list A) :
  (forall a, In a l -> f a = a) -> map f l = l.
Proof.
  induction l as [|a l IH]; simpl; intros H; [reflexivity|].
  rewrite H, IH; auto.
Qed.

(** A click on a node gives every node with that id a colour of the
    palette, whatever colour it had; the nodes with another id are nodes
    of the list before the click. *)
Theorem cycle_color_palette (i : nat) (st : Sim) (n : Node) :
  In n (nodes (cycle_color i st)) ->
  (id n = i -> In (color n) colors)
  /\ (id n <> i -> In n (nodes st)).
Proof.
  rewrite cycle_color_nodes; intros Hn.
  apply in_map_iff in Hn as (m & <- & Hm).
  destruct (Nat.eqb_spec (id m) i) as [E|E]; simpl.
  - split; [intros _; apply next_color_in|intros F; congruence].
  - split; [intros F; congruence|intros _; exact Hm].
Qed.

Lemma cycle_color_palette_witness :
  In (mkNode 1 100 100 "blue") (nodes (cycle_color 1 triangle_session))
  /\ In (color (mkNode 1 100 100 "blue")) colors.
Proof.
  assert (Hn : In (mkNode 1 100 100 "blue") (nodes (cycle_color 1 triangle_session)))
    by (vm_compute; left; reflexivity).
  split; [exact Hn|].
  exact (proj1 (cycle_color_palette 1 triangle_session _ Hn) eq_refl).
Defined.

(** The colour cycle has period five: when the nodes with id [i] carry
    colours of the palette, five clicks on node [i] restore the node list. *)
Theorem cycle_color_period (i : nat) (st : Sim) :
  (forall n, In n (nodes st) -> id n = i -> In (color n) colors) ->
  nodes (cycle_color i (cycle_color i (cycle_color i (cycle_color i (cycle_color i st)))))
  = nodes st.
Proof.
  intros H; rewrite !cycle_color_nodes, !map_map.
  apply map_fixed; intros [ni nx ny nc] Hn; simpl.
  destruct (Nat.eqb_spec ni i) as [E|E]; simpl.
  - rewrite (proj2 (Nat.eqb_eq ni i) E); simpl.
    rewrite (proj2 (Nat.eqb_eq ni i) E); simpl.
    rewrite (proj2 (Nat.eqb_eq ni i) E); simpl.
    rewrite (proj2 (Nat.eqb_eq ni i) E); simpl.
    rewrite next_color_period; [reflexivity|].
    exact (H _ Hn E).
  - rewrite (proj2 (Nat.eqb_neq ni i) E); simpl.
    rewrite (proj2 (Nat.eqb_neq ni i) E); simpl.
    rewrite (proj2 (Nat.eqb_neq ni i) E); simpl.
    rewrite (proj2 (Nat.eqb_neq ni i) E); reflexivity.
Qed.

Lemma cycle_color_period_witness :
  nodes (cycle_color 1 (cycle_color 1 (cycle_color 1 (cycle_color 1
    (cycle_color 1 triangle_session))))) = nodes triangle_session.
Proof.
  apply cycle_color_period.
  intros n Hn _; vm_compute in Hn.
  destruct Hn as [<-|[<-|[<-|[]]]]; vm_compute; tauto.
Defined.

Lemma active_nodes_add (nds : list Node) (i : nat) (px py : R) :
  active_nodes (nds ++ [mkNode i px py (hd inactiveColor colors)]) = active_nodes nds.
Proof.
  unfold active_nodes; rewrite filter_app.
  replace (filter _ [_]) with (@nil Node) by reflexivity; apply app_nil_r.
Qed.

(** A node added by a click on the canvas is grey, so it changes nothing
    in a later start request: with the same draws the request has the
    same outcome and sends the same packet. *)
Theorem start_after_add_node (r1 r2 i : nat) (px py : R) (st : Sim) :
  snd (startRoutingSimulation r1 r2 (add_node i px py st))
  = snd (startRoutingSimulation r1 r2 st)
  /\ packet (fst (startRoutingSimulation r1 r2 (add_node i px py st)))
     = packet (fst (startRoutingSimulation r1 r2 st)).
Proof.
  unfold startRoutingSimulation; cbn [nodes add_node].
  rewrite active_nodes_add.
  destruct (Nat.ltb _ 2); [split; reflexivity|].
  destruct (pick r1 _) as [src|]; [|split; reflexivity].
  destruct (pick r2 _); split; reflexivity.
Qed.
(** ** A hop that outlives its run *)

Lemma sqrt_sq (a b c : R) : 0 <= c -> a ^ 2 + b ^ 2 = c * c -> sqrt (a ^ 2 + b ^ 2) = c.
Proof. intros Hc Habc; rewrite Habc; apply sqrt_square; exact Hc. Qed.

Lemma race_stats_values :
  route_stats [edge_PQ; edge_YX] edge_YX = mkStats 2 100 300.
Proof.
  unfold route_stats, edge_length, edge_PQ, edge_YX; cbn [fold_left hd last List.length x1 y1 x2 y2].
  rewrite (sqrt_sq (430 - 400) (240 - 200) 50), (sqrt_sq (100 - 130) (200 - 240) 50),
    (sqrt_sq (400 - 100) (200 - 200) 300) by (lra || ring).
  f_equal; ring.
Qed.

Lemma race_world_route :
  routeEdges (ui race_world) = [edge_PQ; edge_YX]
  /\ lastRouteStats (ui race_world) = Some (route_stats [edge_PQ; edge_YX] edge_YX)
  /\ finalMessage (ui race_world) = Some msg_arrived.
Proof. vm_compute; repeat split. Qed.

(** C3 — fails when a run is reset (or replaced) while one of its hops is
    under way: the reset does not stop the d3 transition, whose ["end"]
    callback later appends its edge to the route of the next run and
    computes statistics on arrival.  In the reachable world [race_world]
    the arrival statistics are those of the route [P -> Q; Y -> X], which
    is not a path: its total length 100 is below its direct distance 300,
    so the stretch ratio is 1/3. *)
Theorem reset_hop_breaks_stats :
  reachable square_delaunay race_world
  /\ routeEdges (ui race_world) = [edge_PQ; edge_YX]
  /\ finalMessage (ui race_world) = Some msg_arrived
  /\ lastRouteStats (ui race_world) = Some (mkStats 2 100 300)
  /\ exists s, lastRouteStats (ui race_world) = Some s
               /\ totalLength s < directDistance s
               /\ totalLength s / directDistance s < 1.
Proof.
  destruct race_world_route as (Hr & Hs & Hm).
  rewrite race_stats_values in Hs.
  split; [plays|].
  split; [exact Hr|]. split; [exact Hm|]. split; [exact Hs|].
  exists (mkStats 2 100 300); split; [exact Hs|]; cbn [totalLength directDistance].
  split; [lra|].
  apply (Rmult_lt_reg_r 300); [lra|].
  unfold Rdiv; rewrite Rmult_assoc, Rinv_l by lra; lra.
Qed.

(** C9 — fails for the same reason: a drag of [P], a node of the route,
    clears the route (world [race_reset]: empty route, no packet, reset
    message), but the hop [P -> Q] under way still lands later and its
    edge enters the route of the next run, started at [Y]; the route of the
    reachable world [race_world] is [P -> Q; Y -> X], whose second edge
    does not start where the first one ends. *)
Theorem reset_hop_breaks_continuity :
  reachable square_delaunay race_reset
  /\ routeEdges (ui race_reset) = []
  /\ packet (ui race_reset) = None
  /\ finalMessage (ui race_reset) = Some msg_reset
  /\ reachable square_delaunay race_world
  /\ routeEdges (ui race_world) = [edge_PQ; edge_YX]
  /\ endId edge_PQ <> startId edge_YX
  /\ ~ chained (routeEdges (ui race_world)).
Proof.
  destruct race_world_route as (Hr & _ & _).
  split; [plays|].
  split; [vm_compute; reflexivity|].
  split; [vm_compute; reflexivity|].
  split; [vm_compute; reflexivity|].
  split; [plays|].
  split; [exact Hr|].
  split; [unfold edge_PQ, edge_YX; simpl; discriminate|].
  rewrite Hr; simpl; intros (_ & _ & H & _); discriminate H.
Qed.

(** ** Renders and hops: what they change *)


Lemma simulateRoutingStep_same (dn : list (R * R) -> Z -> list nat) (c : Closure)
  (rnd : nat) (cur dest : Node) (w : World) :
  same_rs (ui w) (ui (simulateRoutingStep dn c rnd cur dest w))
  /\ exists l, transitions (simulateRoutingStep dn c rnd cur dest w) = transitions w ++ l.
Proof.
  unfold simulateRoutingStep.
  destruct (getNextNode dn _ _ _ _ _ _) as [next|].
  - destruct (circle w); (split; [split; reflexivity|]); eexists; [reflexivity|].
    symmetry; apply app_nil_r.
  - split; [split; reflexivity|]; exists []; symmetry; apply app_nil_r.
Qed.

Lemma commit_same (w : World) : ui (commit w) = ui w /\ transitions (commit w) = transitions w.
Proof. unfold commit; destruct (packet (ui w)); [destruct (circle w)|]; split; reflexivity. Qed.

Lemma effect_same (dn : list (R * R) -> Z -> list nat) (rnd : nat) (w : World) :
  same_rs (ui w) (ui (effect dn rnd w))
  /\ exists l, transitions (effect dn rnd w) = transitions w ++ l.
Proof.
  unfold effect.
  destruct (packet (ui w)) as [p|];
    [destruct (simulationStarted (ui w))|];
    try (split; [split; reflexivity | exists []; symmetry; apply app_nil_r]).
  destruct (simulateRoutingStep_same dn
              (mkClosure (nodes (ui w)) (strategy (ui w)) (routeEdges (ui w)) p) rnd
              (currentNode p) (destination p) (with_ui (set_started true) w))
    as ((H1 & H2) & l & Hl).
  split; [split; [exact H1 | exact H2]|]; exists l; exact Hl.
Qed.

Lemma render_same (dn : list (R * R) -> Z -> list nat) (rnd : nat) (w : World) :
  same_rs (ui w) (ui (render dn rnd w))
  /\ exists l, transitions (render dn rnd w) = transitions w ++ l.
Proof.
  unfold render, same_rs.
  destruct (commit_same w) as (U1 & T1).
  destruct (effect_same dn rnd (commit w)) as ((R2 & S2) & l & T2).
  destruct (commit_same (effect dn rnd (commit w))) as (U3 & T3).
  rewrite U3, T3, T2, T1, R2, S2, U1.
  split; [split; reflexivity | exists l; reflexivity].
Qed.

Lemma hop_end_same (dn : list (R * R) -> Z -> list nat) (h : Hop) (rnd : nat) (w : World) :
  routeEdges (ui (hop_end dn h rnd w)) = routeEdges (ui w) ++ [hop_edge h]
  /\ lastRouteStats (ui (hop_end dn h rnd w))
     = if Nat.eqb (id (hop_next h)) (id (hop_destination h))
       then Some (route_stats (routeEdges (ui w) ++ [hop_edge h]) (hop_edge h))
       else lastRouteStats (ui w).
Proof.
  unfold hop_end.
  destruct (Nat.eqb (id (hop_next h)) (id (hop_destination h))); [split; reflexivity|].
  match goal with |- context [simulateRoutingStep dn ?c ?r ?a ?b ?w0] =>
    destruct (simulateRoutingStep_same dn c r a b w0) as ((H1 & H2) & _)
  end.
  rewrite H1, H2; split; reflexivity.
Qed.

Lemma stats_of_prefix_same (st st' : Sim) :
  same_rs st st' -> stats_of_prefix st -> stats_of_prefix st'.
Proof. intros (H1 & H2) H s Hs; rewrite H1; apply H; rewrite <- H2; exact Hs. Qed.

Lemma stats_of_prefix_ext (st st' : Sim) (l : list RouteEdge) :
  routeEdges st' = routeEdges st ++ l -> lastRouteStats st' = lastRouteStats st ->
  stats_of_prefix st -> stats_of_prefix st'.
Proof.
  intros H1 H2 H s Hs; rewrite H2 in Hs.
  destruct (H s Hs) as (pre & post & d & Hne & Hr & ->).
  exists pre, (post ++ l), d; split; [exact Hne|]; split; [|reflexivity].
  rewrite H1, Hr, app_assoc; reflexivity.
Qed.

Lemma stats_of_prefix_none (st : Sim) : lastRouteStats st = None -> stats_of_prefix st.
Proof. intros H s Hs; congruence. Qed.

Lemma handle_stats_of_prefix (dn : list (R * R) -> Z -> list nat) (ev : Event)
  (w w1 : World) :
  stats_of_prefix (ui w) -> handle dn ev w = Some w1 -> stats_of_prefix (ui w1).
Proof.
  intros H Hh; destruct ev as [i px py|i|s|i px py|r1 r2|k|k rnd|]; simpl in Hh.
  - injection Hh as <-; exact H.
  - injection Hh as <-; exact H.
  - injection Hh as <-; exact H.
  - injection Hh as <-; cbn [with_ui ui]; unfold updateNodePosition.
    destruct (existsb _ _); [apply stats_of_prefix_none; reflexivity | exact H].
  - injection Hh as <-; cbn [with_ui ui].
    destruct (startRoutingSimulation r1 r2 (ui w)) as [st' o] eqn:E; simpl.
    destruct o.
    + destruct (start_started r1 r2 (ui w) st' E) as (s & d & -> & _).
      apply stats_of_prefix_none; reflexivity.
    + destruct (start_not_started r1 r2 (ui w) st' TooFewActive E ltac:(discriminate))
        as (m & ->); exact H.
    + destruct (start_not_started r1 r2 (ui w) st' NoDestination E ltac:(discriminate))
        as (m & ->); exact H.
  - destruct (find_transition k w) as [t|]; [|discriminate].
    destruct (tr_started t); [discriminate|]; injection Hh as <-; exact H.
  - destruct (find_transition k w) as [t|]; [|discriminate].
    destruct (tr_started t); [|discriminate]; injection Hh as <-.
    destruct (hop_end_same dn (tr_hop t) rnd (remove_transition k w)) as (H1 & H2).
    cbn [remove_transition ui] in H1, H2.
    destruct (Nat.eqb _ _).
    + intros s Hs; rewrite H2 in Hs; injection Hs as <-.
      exists (routeEdges (ui w) ++ [hop_edge (tr_hop t)]), [], (hop_edge (tr_hop t)).
      split; [destruct (routeEdges (ui w)); discriminate|].
      rewrite H1, app_nil_r; split; reflexivity.
    + exact (stats_of_prefix_ext _ _ _ H1 H2 H).
  - destruct (arrivals w); [discriminate|]; injection Hh as <-; exact H.
Qed.

(** In every reachable world, statistics that exist are those of a
    non-empty prefix of the route: edge count at least one, total length
    the sum of the prefix's edge lengths, direct distance from its first
    edge's start to its last edge's end.  The prefix is the route as it
    was when the arrival's edge was appended; edges that land later (hops
    of a run reset or replaced) extend the route, not the statistics. *)
Theorem stats_prefix (dn : list (R * R) -> Z -> list nat) (w : World) :
  reachable dn w ->
  forall s, lastRouteStats (ui w) = Some s ->
    exists pre post, pre <> [] /\ routeEdges (ui w) = pre ++ post
      /\ (1 <= numEdges s)%nat /\ numEdges s = List.length pre
      /\ totalLength s = path_length pre
      /\ exists e0 rest, pre = e0 :: rest
           /\ directDistance s = sqrt ((x1 e0 - x2 (last pre e0)) ^ 2
                                       + (y1 e0 - y2 (last pre e0)) ^ 2).
Proof.
  intros Hr.
  assert (Hinv : stats_of_prefix (ui w)).
  { induction Hr as [|w ev rnd w' Hr IH Hs].
    - apply stats_of_prefix_none; reflexivity.
    - unfold step in Hs; destruct (handle dn ev w) as [w1|] eqn:Eh; [|discriminate].
      injection Hs as <-.
      apply (stats_of_prefix_same (ui w1)); [apply render_same|].
      exact (handle_stats_of_prefix dn ev w w1 IH Eh). }
  intros s Hs; destruct (Hinv s Hs) as (pre & post & d & Hne & Hrt & ->).
  destruct pre as [|e0 rest]; [congruence|].
  exists (e0 :: rest), post; rewrite route_stats_cons; cbn [numEdges totalLength directDistance].
  split; [exact Hne|]; split; [exact Hrt|].
  split; [simpl; lia|]; split; [reflexivity|]; split; [reflexivity|].
  exists e0, rest; split; reflexivity.
Qed.

Lemma stats_prefix_witness :
  lastRouteStats (ui race_world) = Some (mkStats 2 100 300)
  /\ exists pre post, pre <> [] /\ routeEdges (ui race_world) = pre ++ post
                      /\ totalLength (mkStats 2 100 300) = path_length pre.
Proof.
  destruct race_world_route as (_ & Hs & _); rewrite race_stats_values in Hs.
  split; [exact Hs|].
  destruct (stats_prefix square_delaunay race_world
              ltac:(plays) (mkStats 2 100 300) Hs)
    as (pre & post & Hne & Hr & _ & _ & Ht & _).
  exists pre, post; split; [exact Hne|]; split; [exact Hr | exact Ht].
Defined.


